(** * clinical_note_miner: the batch extraction engine

    A shallow embedding of [clinical_note_miner/matcher.py] and
    [clinical_note_miner/pipeline.py], and the properties of the engine
    stated over it.

    Python values are modelled as follows.
    - A decoded JSON document is a [json] tree.  Numbers are integers:
      fractional numbers are outside the model.
    - A [dict] whose insertion order can be observed is an association
      list; a [dict] compared only for its content (the merged extraction)
      is a [gmap]; a [set] is a [gset].
    - A call that may raise returns a [res]; code that talks to the
      generation client threads a [world] (client state and the trace of
      calls and sleeps).
    - The event loop and the worker thread are labelled transition systems
      whose states are the suspension points of the coroutines.
    Task cancellation and [KeyboardInterrupt] are outside the model. *)

From Stdlib Require Import ZArith String List Lia Permutation Sorted.
From stdpp Require Import base gmap sets list strings pretty.
From Equations Require Import Equations.

Open Scope Z_scope.
Set Warnings "-register-all".

(** ** Python values *)

Module Py.

Inductive json :=
| JNull
| JBool (b : bool)
| JNum (n : Z)
| JStr (s : string)
| JArr (items : list json)
| JObj (fields : list (string * json)).

Definition str_truthy (s : string) : bool :=
  match s with EmptyString => false | String _ _ => true end.

Definition list_truthy {A} (l : list A) : bool :=
  match l with [] => false | _ :: _ => true end.

(** [bool(v)]: what [if v:] tests. *)
Definition py_truthy (v : json) : bool :=
  match v with
  | JNull => false
  | JBool b => b
  | JNum n => negb (n =? 0)
  | JStr s => str_truthy s
  | JArr l => list_truthy l
  | JObj l => list_truthy l
  end.

(** [d.get(k)] on a dict kept as an association list. *)
Fixpoint dict_get {A} (k : string) (d : list (string * A)) : option A :=
  match d with
  | [] => None
  | (k', v) :: d' => if String.eqb k k' then Some v else dict_get k d'
  end.

Definition dict_has {A} (k : string) (d : list (string * A)) : bool :=
  match dict_get k d with Some _ => true | None => false end.

(** [needle in haystack] on two strings. *)
Definition str_contains (needle haystack : string) : bool :=
  match String.index 0 needle haystack with Some _ => true | None => false end.

Inductive exn :=
| TypeError
| InvalidLineError
| RegexError
| OtherError (msg : string).

Inductive res (A : Type) :=
| Ok (a : A)
| Raise (e : exn).
Arguments Ok {A} a.
Arguments Raise {A} e.

#[export] Instance res_ret : MRet res := fun A a => Ok a.

#[export] Instance res_bind : MBind res := fun A B k m =>
  match m with Ok a => k a | Raise e => Raise e end.

(** The hashable scalars, up to Python's [==]: [True == 1] and
    [False == 0], so booleans are filed under the integers. *)
Inductive pykey :=
| KNone
| KInt (n : Z)
| KStr (s : string).

Definition to_key (v : json) : option pykey :=
  match v with
  | JNull => Some KNone
  | JBool b => Some (KInt (if b then 1 else 0))
  | JNum n => Some (KInt n)
  | JStr s => Some (KStr s)
  | JArr _ | JObj _ => None
  end.

#[export] Instance pykey_eq_dec : EqDecision pykey.
Proof. solve_decision. Defined.

#[export] Instance pykey_countable : Countable pykey.
Proof.
  refine (inj_countable'
    (fun k => match k with
              | KNone => inl ()
              | KInt n => inr (inl n)
              | KStr s => inr (inr s)
              end)
    (fun x => match x with
              | inl _ => KNone
              | inr (inl n) => KInt n
              | inr (inr s) => KStr s
              end) _).
  intros []; reflexivity.
Defined.

End Py.
Import Py.

(** ** matcher.py *)

Module Matcher.

(** One element of the list [find_matches] returns:
    [{"start": .., "end": .., "match_text": ..}]. *)
Record rmatch := { m_start : Z; m_end : Z; match_text : string }.

(** [fuzzy_config["errors"]]: "int or str". *)
Inductive errors_setting :=
| ErrInt (n : Z)
| ErrStr (s : string).

Record fuzzy_cfg := { cfg_errors : option errors_setting }.

Definition errors_truthy (e : errors_setting) : bool :=
  match e with ErrInt n => negb (n =? 0) | ErrStr s => str_truthy s end.

Definition errors_str (e : errors_setting) : string :=
  match e with ErrInt n => pretty n | ErrStr s => s end.

Definition py_len (s : string) : Z := Z.of_nat (String.length s).

(** [list.sort(key=..)] is a stable sort; a stable sort has one possible
    result, computed here by insertion from the right. *)
Fixpoint insert_by {A} (key : A -> Z) (x : A) (l : list A) : list A :=
  match l with
  | [] => [x]
  | y :: l' => if key x <=? key y then x :: y :: l' else y :: insert_by key x l'
  end.

Definition py_sort {A} (key : A -> Z) (l : list A) : list A :=
  foldr (insert_by key) [] l.

(** The sort key of [find_matches]. *)
Definition closeness (query : string) (m : rmatch) : Z :=
  Z.abs (py_len (match_text m) - py_len query).

(** The [regex] package: [regex.escape], and the matches
    [regex.finditer(pattern, text, flags=regex.IGNORECASE)] yields, each
    with its [start()], [end()] and [group()]; a pattern the package
    does not accept raises. *)
Class Regex := {
  regex_escape : string -> string;
  regex_finditer : string -> string -> res (list rmatch) }.

Definition default_errors (query : string) : errors_setting :=
  ErrInt (if 10 <? py_len query then 2 else 0).

Definition build_pattern `{Regex} (query : string) (fuzzy_config : option fuzzy_cfg)
  : string :=
  let fuzzy_config := default {| cfg_errors := None |} fuzzy_config in
  let errors :=
    match cfg_errors fuzzy_config with
    | Some e => e
    | None => default_errors query
    end in
  let escaped_query := regex_escape query in
  if errors_truthy errors
  then "(" +:+ escaped_query +:+ "){e<=" +:+ errors_str errors +:+ "}"
  else escaped_query.

Definition find_matches `{Regex} (text query : string)
  (fuzzy_config : option fuzzy_cfg) : res (list rmatch) :=
  if negb (str_truthy query) then Ok []
  else
    let pattern := build_pattern query fuzzy_config in
    matches ← regex_finditer pattern text;
    Ok (if list_truthy matches
        then py_sort (closeness query) matches
        else matches).



End Matcher.
Import Matcher.

(** ** schema.py and llm.py: what the pipeline uses of them *)

Module Schema.

(** [ExtractionElement]; [response_type] only shapes the prompt. *)
Record ExtractionElement := {
  el_name : string;
  el_description : string;
  el_grounding : bool;
  el_reasoning : bool }.

(** [ExtractionSchema.elements]: a dict in insertion order. *)
Record ExtractionSchema := { elements : list (string * ExtractionElement) }.

Definition get_element (schema : ExtractionSchema) (name : string)
  : option ExtractionElement :=
  dict_get name (elements schema).

Definition element_keys (schema : ExtractionSchema) : list string :=
  map fst (elements schema).

End Schema.
Import Schema.

(** ** pipeline.py *)

Module Pipeline.

(** Latencies are floating-point seconds; the pipeline only adds them. *)
Class Floats := {
  float : Type;
  float_zero : float;
  float_add : float -> float -> float }.

(** A successful result dict of [LLMClient.chat_completion]. *)
Record payload `{Floats} := {
  message_content : string;
  p_latency : option float;
  p_usage : option (list (string * Z));
  p_reasoning_content : option string }.

(** One awaited [chat_completion(messages)]: [success] true, [success]
    false with [result.get('error')], or an exception with its [str(e)]. *)
Inductive call_outcome `{Floats} :=
| CallOk (p : payload)
| CallFail (error : option string)
| CallRaise (msg : string).

(** What lies outside pipeline.py: the JSON decoder ([inl msg] is a
    [JSONDecodeError] with that text), [str()] of a list of names, the
    prompt builder, the generation client as a state machine, and what
    [find_matches] does when handed a truthy query that is not a [str]. *)
Class Runtime `{Floats} := {
  json_loads : string -> string + json;
  py_repr : list string -> string;
  messages : Type;
  construct_messages : ExtractionSchema -> string -> list string -> messages;
  client : Type;
  chat_completion : client -> messages -> call_outcome * client;
  find_matches_dyn : string -> json -> option fuzzy_cfg -> res (list rmatch) }.

(** The attributes [BatchProcessor.__init__] stores.
    [max_parallel_requests] is the initial value of [self.semaphore];
    [asyncio.Semaphore] refuses a negative one. *)
Record BatchProcessor := {
  schema : ExtractionSchema;
  max_parallel_requests : nat;
  output_file : option string;
  fuzzy_config : option fuzzy_cfg;
  enable_prompt_logging : bool;
  enable_file_output : bool;
  max_retries : Z;
  max_elements_per_request : option Z;
  include_chunk_details : bool;
  chunk_reasoning : bool;
  chunk_metrics : bool;
  include_raw_response : bool;
  completed_ids : gset pykey }.

Definition opt_str_truthy (o : option string) : bool :=
  match o with Some s => str_truthy s | None => false end.

(** [self.output_file and self.enable_file_output] *)
Definition file_output_on (bp : BatchProcessor) : bool :=
  opt_str_truthy (output_file bp) && enable_file_output bp.

(** *** The result records *)

Record anchor := { a_start : Z; a_end : Z }.

Record grounding_entry := { g_text : json; g_anchors : list anchor }.

(** [item_output]: the FieldResult. *)
Record item_output := {
  io_answer : json;
  io_reasoning : option json;
  io_grounding : option (list grounding_entry) }.

Record usage_totals := {
  prompt_tokens : Z;
  completion_tokens : Z;
  total_tokens : Z }.

Record chunk_data `{Floats} := {
  chunk_index : nat;
  cd_elements : list string;
  cd_success : bool;
  cd_latency : option float;
  cd_usage : option (list (string * Z));
  cd_raw_response : option string;
  cd_reasoning : option string;
  cd_error : option string }.

(** The dict [process_note] returns: the DocumentResult. *)
Record output `{Floats} := {
  o_id : string;
  extraction : gmap string item_output;
  errors : list string;
  success : bool;
  o_latency : float;
  o_chunks : option (list chunk_data);
  o_usage : option usage_totals;
  o_error : option string;
  o_raw_response : option string }.

(** *** Effects *)

Inductive event `{Runtime} :=
| ECall (m : messages)
| ESleep (seconds : Z)
| EPrint (note_id : string) (chunk_no total : nat) (m : messages).

(** The generation client, the trace of what was awaited and printed, and
    the records appended to the output file. *)
Record world `{Runtime} := {
  w_client : client;
  w_trace : list event;
  w_ledger : list output }.

Definition emit `{Runtime} (e : event) (w : world) : world :=
  {| w_client := w_client w; w_trace := w_trace w ++ [e]; w_ledger := w_ledger w |}.

Definition call_client `{Runtime} (m : messages) (w : world) : call_outcome * world :=
  let '(o, c) := chat_completion (w_client w) m in
  (o, {| w_client := c; w_trace := w_trace w ++ [ECall m]; w_ledger := w_ledger w |}).

Definition append_ledger `{Runtime} (o : output) (w : world) : world :=
  {| w_client := w_client w; w_trace := w_trace w; w_ledger := w_ledger w ++ [o] |}.

(** *** _load_completed_ids *)

(** The output file as [jsonlines.open] finds it: absent, or a sequence
    of lines.  A line is [None] when the reader rejects it with
    [InvalidLineError] (not JSON, or a bare [null]). *)
Inductive ledger_file :=
| NoFile
| File (lines : list (option json)).

(** [k in v] for a string [k]. *)
Definition py_in_str (k : string) (v : json) : res bool :=
  match v with
  | JObj d => Ok (dict_has k d)
  | JArr l => Ok (existsb (fun x => match x with JStr s => String.eqb s k | _ => false end) l)
  | JStr s => Ok (str_contains k s)
  | JNull | JBool _ | JNum _ => Raise TypeError
  end.

(** [v[k]] for a string [k], once [k in v] holds. *)
Definition py_getitem_str (k : string) (v : json) : res json :=
  match v with
  | JObj d => match dict_get k d with Some x => Ok x | None => Raise TypeError end
  | _ => Raise TypeError
  end.

Fixpoint load_lines (lines : list (option json)) (ids : gset pykey) : res (gset pykey) :=
  match lines with
  | [] => Ok ids
  | None :: _ => Raise InvalidLineError
  | Some obj :: rest =>
      has_id ← py_in_str "id" obj;
      if has_id : bool then
        v ← py_getitem_str "id" obj;
        match to_key v with
        | Some k => load_lines rest ({[ k ]} ∪ ids)
        | None => Raise TypeError
        end
      else load_lines rest ids
  end.

(** [try: with jsonlines.open(..) as reader: .. except FileNotFoundError: pass] *)
Definition _load_completed_ids (f : ledger_file) (ids : gset pykey) : res (gset pykey) :=
  match f with
  | NoFile => Ok ids
  | File lines => load_lines lines ids
  end.

(** The tail of [__init__]: the id set a new processor starts with. *)
Definition init_completed_ids (output_file : option string) (enable_file_output overwrite : bool)
  (f : ledger_file) : res (gset pykey) :=
  if opt_str_truthy output_file && enable_file_output then
    if overwrite then Ok ∅ else _load_completed_ids f ∅
  else Ok ∅.

(** *** What the resume id set is measured against *)

(** A line holding a JSON object whose ["id"], if it has one, is
    hashable. *)
Definition record_line (line : option json) : Prop :=
  exists d, line = Some (JObj d)
    /\ forall v, dict_get "id" d = Some v -> is_Some (to_key v).

(** The ids recorded in a sequence of lines. *)
Fixpoint ledger_ids (lines : list (option json)) : gset pykey :=
  match lines with
  | [] => ∅
  | Some (JObj d) :: rest =>
      match dict_get "id" d ≫= to_key with
      | Some k => {[ k ]} ∪ ledger_ids rest
      | None => ledger_ids rest
      end
  | _ :: rest => ledger_ids rest
  end.

(** *** The chunk planner (the head of [process_note]) *)

(** [element_names if element_names else list(self.schema.elements.keys())] *)
Definition resolve_targets (schema : ExtractionSchema) (element_names : option (list string))
  : list string :=
  match element_names with
  | Some (x :: l) => x :: l
  | Some [] | None => element_keys schema
  end.

(** [range(i, stop, step)] for a positive [step]. *)
Equations? py_range (i stop step : Z) : list Z by wf (Z.to_nat (stop - i)) lt :=
py_range i stop step with decide (0 < step /\ i < stop) => {
  | left _ := i :: py_range (i + step) stop step;
  | right _ := [] }.
Proof. lia. Qed.

(** [l[i:j]] for [0 <= i <= j]. *)
Definition py_slice {A} (l : list A) (i j : Z) : list A :=
  take (Z.to_nat (j - i)) (drop (Z.to_nat i) l).

Definition plan_chunks (max_elements_per_request : option Z) (target_elements : list string)
  : list (list string) :=
  match max_elements_per_request with
  | Some k =>
      if decide (k <> 0 /\ k > 0) then
        map (fun i => py_slice target_elements i (i + k))
            (py_range 0 (Z.of_nat (length target_elements)) k)
      else [target_elements]
  | None => [target_elements]
  end.

(** *** _call_llm_with_retry *)

(** The dict [_call_llm_with_retry] returns:
    [{"success": True, "result": .., "errors": ..}] or
    [{"success": False, "errors": ..}]. *)
Inductive retry_result `{Floats} :=
| RetrySuccess (result : payload) (errors : list string)
| RetryFailure (errors : list string).

Definition r_success `{Floats} (r : retry_result) : bool :=
  match r with RetrySuccess _ _ => true | RetryFailure _ => false end.

Definition r_errors `{Floats} (r : retry_result) : list string :=
  match r with RetrySuccess _ errors | RetryFailure errors => errors end.

(** [str(x)] of an optional string. *)
Definition py_str_opt (o : option string) : string :=
  match o with Some s => s | None => "None" end.

Definition attempt_label (attempts : Z) : string :=
  "Attempt " +:+ pretty (attempts + 1) +:+ ": ".

(** [await asyncio.sleep(1 * attempts)] when another attempt follows. *)
Definition backoff `{Runtime} (max_retries attempts : Z) (w : world) : world :=
  if decide (attempts <= max_retries) then emit (ESleep (1 * attempts)) w else w.

(** [while attempts <= self.max_retries: ...] *)
Equations? retry_loop `{Runtime} (max_retries : Z) (m : messages)
  (attempts : Z) (errors : list string) (w : world)
  : retry_result * world by wf (Z.to_nat (max_retries + 1 - attempts)) lt :=
retry_loop max_retries m attempts errors w with decide (attempts <= max_retries) => {
  | right _ := (RetryFailure errors, w);
  | left _ with call_client m w => {
    | (CallOk p, w1) := (RetrySuccess p errors, w1);
    | (CallFail error, w1) :=
        retry_loop max_retries m (attempts + 1)
          (errors ++ [attempt_label attempts +:+ py_str_opt error])
          (backoff max_retries (attempts + 1) w1);
    | (CallRaise msg, w1) :=
        retry_loop max_retries m (attempts + 1)
          (errors ++ [attempt_label attempts +:+ "Exception " +:+ msg])
          (backoff max_retries (attempts + 1) w1) } }.
Proof. all: lia. Qed.

Definition _call_llm_with_retry `{Runtime} (bp : BatchProcessor) (m : messages) (w : world)
  : retry_result * world :=
  retry_loop (max_retries bp) m 0 [] w.

(** *** What a run of the retrying requester is measured against *)

(** An attempt that did not succeed. *)
Definition failed `{Floats} (o : call_outcome) : Prop :=
  match o with CallOk _ => False | CallFail _ | CallRaise _ => True end.

(** The text recorded after the attempt label. *)
Definition failure_detail `{Floats} (o : call_outcome) : string :=
  match o with
  | CallOk _ => ""
  | CallFail error => py_str_opt error
  | CallRaise msg => "Exception " +:+ msg
  end.

(** What the client answers to [n] successive calls with [m]. *)
Fixpoint client_outcomes `{Runtime} (n : nat) (c : client) (m : messages)
  : list call_outcome :=
  match n with
  | O => []
  | S n' => let '(o, c') := chat_completion c m in o :: client_outcomes n' c' m
  end.

Definition is_call `{Runtime} (e : event) : bool :=
  match e with ECall _ => true | _ => false end.

(** The number of generation calls in a trace. *)
Definition calls_in `{Runtime} (tr : list event) : nat :=
  length (filter (fun e => is_call e = true) tr).

(** The messages recorded for a run of failed attempts, the first of
    which is attempt number [first + 1]. *)
Definition attempt_errors `{Floats} (first : Z) (os : list call_outcome) : list string :=
  imap (fun j o => attempt_label (first + Z.of_nat j) +:+ failure_detail o) os.

(** *** _parse_response *)

Definition str_endswith (suffix s : string) : bool :=
  let n := String.length s in
  let k := String.length suffix in
  (k <=? n)%nat && String.eqb (String.substring (n - k) k s) suffix.

(** [content[7:]] after a leading json fence, [content[:-3]] before a
    trailing fence. *)
Definition strip_fences (content : string) : string :=
  let content :=
    if String.prefix "```json" content
    then String.substring 7 (String.length content - 7) content
    else content in
  if str_endswith "```" content
  then String.substring 0 (String.length content - 3) content
  else content.

(** Returns [(json.loads(content), None)], or [(None, str(e))] on a
    [JSONDecodeError]; Python's [None] is [JNull]. *)
Definition _parse_response `{Runtime} (result : payload) : json * option string :=
  match json_loads (strip_fences (message_content result)) with
  | inr v => (v, None)
  | inl e => (JNull, Some e)
  end.

(** *** _post_process_extraction *)

(** [for text_snippet in grounding_text], after a lone string has been
    wrapped in a list. *)
Definition grounding_snippets (grounding_text : json) : res (list json) :=
  match grounding_text with
  | JStr s => Ok [JStr s]
  | JArr l => Ok l
  | JObj d => Ok (map (fun kv => JStr (fst kv)) d)
  | JNull | JBool _ | JNum _ => Raise TypeError
  end.

(** [find_matches(note_text, text_snippet, self.fuzzy_config)] on whatever
    the payload holds as a snippet. *)
Definition find_matches_any `{Runtime} `{Regex} (note_text : string) (text_snippet : json)
  (cfg : option fuzzy_cfg) : res (list rmatch) :=
  match text_snippet with
  | JStr s => find_matches note_text s cfg
  | _ =>
      if py_truthy text_snippet
      then find_matches_dyn note_text text_snippet cfg
      else Ok []
  end.

Definition to_anchor (m : rmatch) : anchor :=
  {| a_start := m_start m; a_end := m_end m |}.

Fixpoint ground_all `{Runtime} `{Regex} (note_text : string) (cfg : option fuzzy_cfg)
  (snippets : list json) (grounding_result : list grounding_entry)
  : res (list grounding_entry) :=
  match snippets with
  | [] => Ok grounding_result
  | text_snippet :: rest =>
      matches ← find_matches_any note_text text_snippet cfg;
      let anchors := if list_truthy matches then map to_anchor matches else [] in
      ground_all note_text cfg rest
        (grounding_result ++ [{| g_text := text_snippet; g_anchors := anchors |}])
  end.

(** [answer], [reasoning], [grounding_text] read off one raw value. *)
Definition split_raw_val (raw_val : json) : json * json * json :=
  match raw_val with
  | JObj d =>
      if dict_has "answer" d || dict_has "value" d then
        (match dict_get "answer" d with
         | Some a => a
         | None => default JNull (dict_get "value" d)
         end,
         default JNull (dict_get "reasoning" d),
         default JNull (dict_get "grounding" d))
      else (raw_val, JNull, JNull)
  | _ => (raw_val, JNull, JNull)
  end.

Definition build_item `{Runtime} `{Regex} (bp : BatchProcessor) (el_def : ExtractionElement)
  (note_text : string) (raw_val : json) : res item_output :=
  let '(answer, reasoning, grounding_text) := split_raw_val raw_val in
  let item_reasoning :=
    if el_reasoning el_def && py_truthy reasoning then Some reasoning else None in
  if el_grounding el_def && py_truthy grounding_text then
    snippets ← grounding_snippets grounding_text;
    grounding_result ← ground_all note_text (fuzzy_config bp) snippets [];
    Ok {| io_answer := answer; io_reasoning := item_reasoning;
          io_grounding := Some grounding_result |}
  else
    Ok {| io_answer := answer; io_reasoning := item_reasoning; io_grounding := None |}.

Fixpoint post_process_loop `{Runtime} `{Regex} (bp : BatchProcessor) (raw_extraction : json)
  (note_text : string) (target_elements : list string)
  (processed_extraction : gmap string item_output) : res (gmap string item_output) :=
  match target_elements with
  | [] => Ok processed_extraction
  | el_name :: rest =>
      match get_element (schema bp) el_name with
      | None => post_process_loop bp raw_extraction note_text rest processed_extraction
      | Some el_def =>
          present ← py_in_str el_name raw_extraction;
          if present : bool then
            raw_val ← py_getitem_str el_name raw_extraction;
            item_output ← build_item bp el_def note_text raw_val;
            post_process_loop bp raw_extraction note_text rest
              (<[el_name := item_output]> processed_extraction)
          else post_process_loop bp raw_extraction note_text rest processed_extraction
      end
  end.

Definition _post_process_extraction `{Runtime} `{Regex} (bp : BatchProcessor)
  (raw_extraction : json) (note_text : string) (element_names : option (list string))
  : res (gmap string item_output) :=
  post_process_loop bp raw_extraction note_text
    (resolve_targets (schema bp) element_names) ∅.

(** *** process_note *)

(** The locals the chunk loop updates. *)
Record acc `{Floats} := {
  merged_extraction : gmap string item_output;
  all_errors : list string;
  overall_success : bool;
  total_latency : float;
  raw_responses : list string;
  chunks_info : list chunk_data;
  total_usage : usage_totals }.

Definition acc_init `{Floats} : acc :=
  {| merged_extraction := ∅; all_errors := []; overall_success := true;
     total_latency := float_zero; raw_responses := []; chunks_info := [];
     total_usage := {| prompt_tokens := 0; completion_tokens := 0; total_tokens := 0 |} |}.

(** [if usage:] *)
Definition usage_truthy (usage : option (list (string * Z))) : option (list (string * Z)) :=
  match usage with
  | Some (kv :: u) => Some (kv :: u)
  | Some [] | None => None
  end.

Definition add_usage (t : usage_totals) (usage : option (list (string * Z))) : usage_totals :=
  match usage_truthy usage with
  | Some u =>
      {| prompt_tokens := prompt_tokens t + default 0 (dict_get "prompt_tokens" u);
         completion_tokens := completion_tokens t + default 0 (dict_get "completion_tokens" u);
         total_tokens := total_tokens t + default 0 (dict_get "total_tokens" u) |}
  | None => t
  end.

Definition opt_truthy_str (o : option string) : option string :=
  match o with
  | Some s => if str_truthy s then Some s else None
  | None => None
  end.

Definition max_retries_msg `{Runtime} (chunk : list string) : string :=
  "Max retries exceeded for chunk " +:+ py_repr chunk.

Definition parse_failed_msg `{Runtime} (chunk : list string) (parse_error : option string)
  : string :=
  "Failed to parse JSON response for chunk " +:+ py_repr chunk +:+ ": "
  +:+ py_str_opt parse_error.

Definition log_prompt `{Runtime} (bp : BatchProcessor) (note_id : string) (i n : nat)
  (m : messages) (w : world) : world :=
  if enable_prompt_logging bp && str_contains "log_prompt" note_id
  then emit (EPrint note_id (S i) n m) w
  else w.

(** One iteration of [for i, chunk in enumerate(chunks)]. *)
Definition process_chunk `{Runtime} `{Regex} (bp : BatchProcessor)
  (note_id note_text : string) (n i : nat) (chunk : list string) (a : acc) (w : world)
  : res acc * world :=
  let m := construct_messages (schema bp) note_text chunk in
  let w := log_prompt bp note_id i n m w in
  let '(retry_result, w) := _call_llm_with_retry bp m w in
  let errs := all_errors a ++ r_errors retry_result in
  match retry_result with
  | RetrySuccess llm_result _ =>
      let latency := default float_zero (p_latency llm_result) in
      let usage := p_usage llm_result in
      let raw_content := message_content llm_result in
      let '(raw_extraction, parse_error) := _parse_response llm_result in
      let chunk_data :=
        {| chunk_index := i; cd_elements := chunk; cd_success := true;
           cd_latency := Some latency;
           cd_usage := if chunk_metrics bp then usage_truthy usage else None;
           cd_raw_response := if include_raw_response bp then Some raw_content else None;
           cd_reasoning :=
             if chunk_reasoning bp then opt_truthy_str (p_reasoning_content llm_result)
             else None;
           cd_error := None |} in
      if py_truthy raw_extraction then
        match _post_process_extraction bp raw_extraction note_text (Some chunk) with
        | Ok processed =>
            (Ok {| merged_extraction := processed ∪ merged_extraction a;
                   all_errors := errs;
                   overall_success := overall_success a;
                   total_latency := float_add (total_latency a) latency;
                   raw_responses := raw_responses a ++ [raw_content];
                   chunks_info := chunks_info a ++ [chunk_data];
                   total_usage := add_usage (total_usage a) usage |}, w)
        | Raise e => (Raise e, w)
        end
      else
        let error_msg := parse_failed_msg chunk parse_error in
        (Ok {| merged_extraction := merged_extraction a;
               all_errors := errs ++ [error_msg];
               overall_success := false;
               total_latency := float_add (total_latency a) latency;
               raw_responses := raw_responses a ++ [raw_content];
               chunks_info :=
                 chunks_info a ++
                 [{| chunk_index := i; cd_elements := chunk; cd_success := true;
                     cd_latency := cd_latency chunk_data; cd_usage := cd_usage chunk_data;
                     cd_raw_response := cd_raw_response chunk_data;
                     cd_reasoning := cd_reasoning chunk_data;
                     cd_error := Some error_msg |}];
               total_usage := add_usage (total_usage a) usage |}, w)
  | RetryFailure _ =>
      let error_msg := max_retries_msg chunk in
      (Ok {| merged_extraction := merged_extraction a;
             all_errors := errs ++ [error_msg];
             overall_success := false;
             total_latency := total_latency a;
             raw_responses := raw_responses a;
             chunks_info :=
               chunks_info a ++
               [{| chunk_index := i; cd_elements := chunk; cd_success := false;
                   cd_latency := None; cd_usage := None; cd_raw_response := None;
                   cd_reasoning := None; cd_error := Some error_msg |}];
             total_usage := total_usage a |}, w)
  end.

(** [for i, chunk in enumerate(chunks)], with [n = len(chunks)]. *)
Fixpoint process_chunks `{Runtime} `{Regex} (bp : BatchProcessor)
  (note_id note_text : string) (n i : nat) (chunks : list (list string)) (a : acc)
  (w : world) : res acc * world :=
  match chunks with
  | [] => (Ok a, w)
  | chunk :: rest =>
      match process_chunk bp note_id note_text n i chunk a w with
      | (Ok a', w') => process_chunks bp note_id note_text n (S i) rest a' w'
      | (Raise e, w') => (Raise e, w')
      end
  end.

Definition newline : string := String (Ascii.ascii_of_nat 10) EmptyString.

(** The body of [process_note], run from the world [w].  The permit of
    [async with self.semaphore] is taken and given back by the task that
    runs it, in [Dispatcher]. *)
Definition process_note `{Runtime} `{Regex} (bp : BatchProcessor)
  (note_id note_text : string) (element_names : option (list string)) (w : world)
  : res output * world :=
  let target_elements := resolve_targets (schema bp) element_names in
  let chunks := plan_chunks (max_elements_per_request bp) target_elements in
  match process_chunks bp note_id note_text (length chunks) 0 chunks acc_init w with
  | (Raise e, w) => (Raise e, w)
  | (Ok a, w) =>
      let output :=
        {| o_id := note_id;
           extraction := merged_extraction a;
           errors := all_errors a;
           success := overall_success a;
           o_latency := total_latency a;
           o_chunks := if include_chunk_details bp then Some (chunks_info a) else None;
           o_usage := if chunk_metrics bp then Some (total_usage a) else None;
           o_error :=
             if negb (overall_success a) then Some "One or more chunks failed" else None;
           o_raw_response :=
             if include_raw_response bp && list_truthy (raw_responses a)
             then Some (String.concat (newline +:+ "---" +:+ newline) (raw_responses a))
             else None |} in
      let w := if file_output_on bp then append_ledger output w else w in
      (Ok output, w)
  end.

(** *** What a document's result is measured against *)

(** The chunks of one document with the outcome of the request made for
    each, in order: chunk [i + 1] is requested in the world chunk [i]'s
    request left behind. *)
Fixpoint chunk_requests `{Runtime} (bp : BatchProcessor) (note_id note_text : string)
  (n i : nat) (chunks : list (list string)) (w : world)
  : list (list string * retry_result) :=
  match chunks with
  | [] => []
  | chunk :: rest =>
      let m := construct_messages (schema bp) note_text chunk in
      let '(r, w') := _call_llm_with_retry bp m (log_prompt bp note_id i n m w) in
      (chunk, r) :: chunk_requests bp note_id note_text n (S i) rest w'
  end.

(** The chunk's request succeeded and its response decoded as JSON. *)
Definition parsed_valid `{Runtime} (cr : list string * retry_result) : Prop :=
  match cr.2 with
  | RetrySuccess p _ => exists v, json_loads (strip_fences (message_content p)) = inr v
  | RetryFailure _ => False
  end.

(** The chunk's request succeeded and its response decoded to a value
    that is true in a condition (a non-empty object, for one). *)
Definition parsed_truthy `{Runtime} (cr : list string * retry_result) : bool :=
  match cr.2 with
  | RetrySuccess p _ => py_truthy (_parse_response p).1
  | RetryFailure _ => false
  end.

(** The processed fields a chunk contributes. *)
Definition chunk_fields `{Runtime} `{Regex} (bp : BatchProcessor) (note_text : string)
  (cr : list string * retry_result) : gmap string item_output :=
  match cr.2 with
  | RetrySuccess p _ =>
      if py_truthy (_parse_response p).1 then
        match _post_process_extraction bp (_parse_response p).1 note_text (Some cr.1) with
        | Ok processed => processed
        | Raise _ => ∅
        end
      else ∅
  | RetryFailure _ => ∅
  end.

(** The union of what the chunks contribute; a later chunk wins a name
    two chunks share, as [dict.update] has it. *)
Definition union_of_fields `{Runtime} `{Regex} (bp : BatchProcessor) (note_text : string)
  (crs : list (list string * retry_result)) : gmap string item_output :=
  foldl (fun merged cr => chunk_fields bp note_text cr ∪ merged) ∅ crs.

(** The messages one chunk adds to the document's error list. *)
Definition chunk_errors `{Runtime} (cr : list string * retry_result) : list string :=
  match cr.2 with
  | RetrySuccess p errors =>
      errors ++
      (if py_truthy (_parse_response p).1 then []
       else [parse_failed_msg cr.1 (_parse_response p).2])
  | RetryFailure errors => errors ++ [max_retries_msg cr.1]
  end.



End Pipeline.
Import Pipeline.

(** ** process_batch: the dispatcher on the event loop

    A state of the transition system is a point where the [process_batch]
    coroutine is suspended ([async for], [await asyncio.wait], [yield]);
    between two such points its code runs without interruption.  The tasks
    it created advance on their own steps: a task takes a permit, awaits
    generation calls, and ends with the dict [process_note] returned (whose
    ["id"] is the note's id) or with an exception. *)

Module Dispatcher.

Inductive status `{Floats} :=
| Queued
| Running
| Done (r : res output).

Record task `{Floats} := { t_note : string; t_status : status }.

Inductive dpc :=
| AtPull
| AtWait (draining : bool)
| AtYield (draining : bool) (done : list nat)
| Finished
| Failed (e : exn).

(** [pending_tasks] holds task numbers (positions in [tasks]);
    [sem_value] is [self.semaphore._value]. *)
Record dstate `{Floats} := DState {
  input : list (string * string);
  tasks : list task;
  pending_tasks : list nat;
  sem_value : Z;
  pc : dpc;
  yielded : list output;
  llm_calls : nat;
  pbar : nat }.
Arguments DState {_} _ _ _ _ _ _ _ _.

Definition is_done `{Floats} (ts : list task) (i : nat) : bool :=
  match ts !! i with
  | Some {| t_status := Done _ |} => true
  | _ => false
  end.

Definition not_done `{Floats} (ts : list task) (i : nat) : bool := negb (is_done ts i).

(** [while pending_tasks:] *)
Definition drain_pc (pending : list nat) : dpc :=
  match pending with [] => Finished | _ :: _ => AtWait true end.

(** [if len(pending_tasks) >= self.semaphore._value * 2:] *)
Definition after_submit (pending : list nat) (sem_value : Z) : dpc :=
  if decide (Z.of_nat (length pending) >= sem_value * 2) then AtWait false else AtPull.

Definition after_done (draining : bool) (pending : list nat) : dpc :=
  if draining then drain_pc pending else AtPull.

Inductive step `{Floats} (bp : BatchProcessor) : dstate -> dstate -> Prop :=
| d_skip note_id note_text inp ts pend v out calls pb :
    KStr note_id ∈ completed_ids bp ->
    step bp (DState ((note_id, note_text) :: inp) ts pend v AtPull out calls pb)
            (DState inp ts pend v AtPull out calls (S pb))
| d_submit note_id note_text inp ts pend v out calls pb :
    KStr note_id ∉ completed_ids bp ->
    step bp (DState ((note_id, note_text) :: inp) ts pend v AtPull out calls pb)
            (DState inp (ts ++ [{| t_note := note_id; t_status := Queued |}])
                    (pend ++ [length ts]) v
                    (after_submit (pend ++ [length ts]) v) out calls pb)
| d_exhausted ts pend v out calls pb :
    step bp (DState [] ts pend v AtPull out calls pb)
            (DState [] ts pend v (drain_pc pend) out calls pb)
| d_wake draining done inp ts pend v out calls pb :
    done <> [] ->
    done ≡ₚ filter (fun i => is_done ts i = true) pend ->
    step bp (DState inp ts pend v (AtWait draining) out calls pb)
            (DState inp ts (filter (fun i => not_done ts i = true) pend) v
                    (AtYield draining done) out calls pb)
| d_yield draining t done r note_id inp ts pend v out calls pb :
    ts !! t = Some {| t_note := note_id; t_status := Done (Ok r) |} ->
    step bp (DState inp ts pend v (AtYield draining (t :: done)) out calls pb)
            (DState inp ts pend v (AtYield draining done) (out ++ [r]) calls (S pb))
| d_raise draining t done e note_id inp ts pend v out calls pb :
    ts !! t = Some {| t_note := note_id; t_status := Done (Raise e) |} ->
    step bp (DState inp ts pend v (AtYield draining (t :: done)) out calls pb)
            (DState inp ts pend v (Failed e) out calls pb)
| d_next draining inp ts pend v out calls pb :
    step bp (DState inp ts pend v (AtYield draining []) out calls pb)
            (DState inp ts pend v (after_done draining pend) out calls pb)
| t_acquire i note_id inp ts pend v p out calls pb :
    ts !! i = Some {| t_note := note_id; t_status := Queued |} ->
    0 < v ->
    step bp (DState inp ts pend v p out calls pb)
            (DState inp (<[i := {| t_note := note_id; t_status := Running |}]> ts)
                    pend (v - 1) p out calls pb)
| t_call i note_id inp ts pend v p out calls pb :
    ts !! i = Some {| t_note := note_id; t_status := Running |} ->
    step bp (DState inp ts pend v p out calls pb)
            (DState inp ts pend v p out (S calls) pb)
| t_finish i note_id r inp ts pend v p out calls pb :
    (* [process_note] returns a dict whose ["id"] is [note_id] *)
    ts !! i = Some {| t_note := note_id; t_status := Running |} ->
    (forall o, r = Ok o -> o_id o = note_id) ->
    step bp (DState inp ts pend v p out calls pb)
            (DState inp (<[i := {| t_note := note_id; t_status := Done r |}]> ts)
                    pend (v + 1) p out calls pb).

Definition init `{Floats} (bp : BatchProcessor) (notes : list (string * string)) : dstate :=
  DState notes [] [] (Z.of_nat (max_parallel_requests bp)) AtPull [] 0 0.

Definition reachable `{Floats} (bp : BatchProcessor) (notes : list (string * string))
  (s : dstate) : Prop :=
  rtc (step bp) (init bp notes) s.

(** The ids of the notes for which a task was created. *)
Definition submitted `{Floats} (s : dstate) : list string := map t_note (tasks s).

(** *** Invariants of the dispatcher *)

(** The number of tasks holding a permit. *)
Definition holds_permit `{Floats} (t : task) : bool :=
  match t_status t with Running => true | Queued | Done _ => false end.

Definition running `{Floats} (ts : list task) : nat :=
  length (filter (fun t => holds_permit t = true) ts).

(** The bound on the outstanding set: twice the cap, and one task when
    the cap is zero. *)
Definition pending_bound (bp : BatchProcessor) : nat :=
  Nat.max (2 * max_parallel_requests bp) 1.

(** The invariant behind the bound. *)
Definition bound_inv `{Floats} (bp : BatchProcessor) (s : dstate) : Prop :=
  sem_value s + Z.of_nat (running (tasks s)) = Z.of_nat (max_parallel_requests bp)
  /\ (length (pending_tasks s) <= pending_bound bp)%nat
  /\ (pc s <> AtWait false -> (length (pending_tasks s) + 1 <= pending_bound bp)%nat).

(** The note's id is in the resume set. *)
Definition covered (bp : BatchProcessor) (note : string * string) : Prop :=
  KStr note.1 ∈ completed_ids bp.

(** What was submitted and what was yielded stays clear of the resume set. *)
Definition skip_inv `{Floats} (bp : BatchProcessor) (s : dstate) : Prop :=
  (forall i t, tasks s !! i = Some t -> KStr (t_note t) ∉ completed_ids bp)
  /\ (forall i note_id r,
        tasks s !! i = Some {| t_note := note_id; t_status := Done (Ok r) |} ->
        o_id r = note_id)
  /\ Forall (fun r => KStr (o_id r) ∉ completed_ids bp) (yielded s).

(** Nothing was ever submitted. *)
Definition idle_inv `{Floats} (bp : BatchProcessor) (s : dstate) : Prop :=
  Forall (covered bp) (input s)
  /\ tasks s = [] /\ pending_tasks s = [] /\ yielded s = [] /\ llm_calls s = 0%nat
  /\ (pc s = AtPull \/ pc s = Finished).

End Dispatcher.

(** ** process_batch_sync: the bridge between the worker thread and the
    consuming generator

    The worker runs [async_wrapper]: it relays what [process_batch]
    yields, and then the way [process_batch] ended.  The consumer polls the
    queue.  The two advance independently; a step is one queue operation,
    one liveness test or the end of the thread.  No [KeyboardInterrupt]
    arrives, so [stop_event] stays clear. *)

Module SyncBridge.

Inductive msg `{Floats} :=
| MItem (r : output)
| MError (e : exn)
| MDone.

(** How the [async for] over [process_batch] ends: exhausted, an
    [Exception], or [asyncio.CancelledError]. *)
Inductive batch_end :=
| EndNormal
| EndException (e : exn)
| EndCancelled.

Inductive worker `{Floats} :=
| WRelay (results : list output) (fin : batch_end)
| WFinally
| WTeardown
| WExited.

Inductive consumer :=
| CPolling
| CEmpty
| CJoin
| CReturned
| CRaised (e : exn).

Record bstate `{Floats} := BState {
  queue : list msg;
  bg : worker;
  fg : consumer;
  delivered : list output }.
Arguments BState {_} _ _ _ _.

Definition is_alive `{Floats} (w : worker) : bool :=
  match w with WExited => false | _ => true end.

Inductive bstep `{Floats} : bstate -> bstate -> Prop :=
| w_item r rs fin q c out :
    bstep (BState q (WRelay (r :: rs) fin) c out)
          (BState (q ++ [MItem r]) (WRelay rs fin) c out)
| w_end_normal q c out :
    bstep (BState q (WRelay [] EndNormal) c out) (BState q WFinally c out)
| w_end_cancelled q c out :
    bstep (BState q (WRelay [] EndCancelled) c out) (BState q WFinally c out)
| w_end_exception e q c out :
    bstep (BState q (WRelay [] (EndException e)) c out)
          (BState (q ++ [MError e]) WFinally c out)
| w_done q c out :
    bstep (BState q WFinally c out) (BState (q ++ [MDone]) WTeardown c out)
| w_exit q c out :
    bstep (BState q WTeardown c out) (BState q WExited c out)
| c_item r q w out :
    bstep (BState (MItem r :: q) w CPolling out) (BState q w CPolling (out ++ [r]))
| c_error e q w out :
    bstep (BState (MError e :: q) w CPolling out) (BState q w (CRaised e) out)
| c_done q w out :
    bstep (BState (MDone :: q) w CPolling out) (BState q w CJoin out)
| c_timeout w out :
    bstep (BState [] w CPolling out) (BState [] w CEmpty out)
| c_alive q w out :
    is_alive w = true ->
    bstep (BState q w CEmpty out) (BState q w CPolling out)
| c_dead q w out :
    is_alive w = false ->
    bstep (BState q w CEmpty out) (BState q w CJoin out)
| c_join q out :
    bstep (BState q WExited CJoin out) (BState q WExited CReturned out).

Definition binit `{Floats} (results : list output) (fin : batch_end) : bstate :=
  BState [] (WRelay results fin) CPolling [].

(** *** What a run of the bridge is measured against *)

(** The message that reports how the batch ended, if any. *)
Definition end_msgs `{Floats} (fin : batch_end) : list msg :=
  match fin with
  | EndException e => [MError e]
  | EndNormal | EndCancelled => []
  end.

(** Everything the worker puts on the queue in the course of a run. *)
Definition all_msgs `{Floats} (results : list output) (fin : batch_end) : list msg :=
  map MItem results ++ end_msgs fin ++ [MDone].

(** The only exception the consumer can meet is the one the batch ended
    with. *)
Definition faithful `{Floats} (fin : batch_end) (s : bstate) : Prop :=
  (forall rs f, bg s = WRelay rs f -> f = fin)
  /\ (forall e, MError e ∈ queue s -> fin = EndException e)
  /\ (forall e, fg s = CRaised e -> fin = EndException e).

End SyncBridge.

(** ** Sample collaborators, on which the theorems are exercised *)

Module Demo.

(** A [regex] stand-in: whatever the pattern, three matches in the order
    they occur in the text, of lengths 3, 5 and 3. *)
Definition three_matches : list rmatch :=
  [ {| m_start := 0; m_end := 3; match_text := "abc" |};
    {| m_start := 4; m_end := 9; match_text := "abcde" |};
    {| m_start := 10; m_end := 13; match_text := "abd" |} ].

Definition regex : Regex :=
  {| regex_escape := fun q => q; regex_finditer := fun _ _ => Ok three_matches |}.

(** Latencies as whole numbers. *)
Definition floats : Floats := {| float := Z; float_zero := 0; float_add := Z.add |}.

(** A decoder that knows two documents. *)
Definition decode (s : string) : string + json :=
  if String.eqb s "{}" then inr (JObj [])
  else if String.eqb s "{a: {answer: x, value: y}}" then
    inr (JObj [("a", JObj [("answer", JStr "x"); ("value", JStr "y")])])
  else inl "Expecting value".

(** A client that plays back a script of outcomes, then keeps failing. *)
Definition scripted (c : list (call_outcome (H := floats))) (m : list string)
  : call_outcome (H := floats) * list (call_outcome (H := floats)) :=
  match c with
  | [] => (CallFail None, [])
  | o :: c' => (o, c')
  end.

Definition runtime : Runtime (H := floats) :=
  {| json_loads := decode;
     py_repr := fun l => "[" +:+ String.concat ", " l +:+ "]";
     messages := list string;
     construct_messages := fun _ _ chunk => chunk;
     client := list (call_outcome (H := floats));
     chat_completion := scripted;
     find_matches_dyn := fun _ _ _ => Raise TypeError |}.

Definition world0 (c : list (call_outcome (H := floats))) : world (H0 := runtime) :=
  @Build_world floats runtime c [] [].

(** The schema of the examples: two fields, [a] and [b]. *)
Definition two_fields : ExtractionSchema :=
  {| elements :=
       [("a", {| el_name := "a"; el_description := "first";
                 el_grounding := false; el_reasoning := false |});
        ("b", {| el_name := "b"; el_description := "second";
                 el_grounding := false; el_reasoning := false |})] |}.

(** A processor over [two_fields] with [workers] permits, the given
    [max_retries], cap on fields per request and resume set; nothing is
    written to a file. *)
Definition make (workers : nat) (retries : Z) (cap : option Z) (ids : gset pykey)
  : BatchProcessor :=
  {| schema := two_fields;
     max_parallel_requests := workers;
     output_file := None;
     fuzzy_config := None;
     enable_prompt_logging := true;
     enable_file_output := true;
     max_retries := retries;
     max_elements_per_request := cap;
     include_chunk_details := true;
     chunk_reasoning := true;
     chunk_metrics := true;
     include_raw_response := true;
     completed_ids := ids |}.

(** The constructor's defaults: five permits, three retries. *)
Definition bp0 : BatchProcessor := make 5 3 (Some 1) ∅.

(** One retry, and the given cap on fields per request. *)
Definition processor (cap : option Z) : BatchProcessor := make 5 1 cap ∅.

(** A successful reply whose message content is [content]. *)
Definition reply (content : string) : payload (H := floats) :=
  @Build_payload floats content (Some 1) None None.

Definition queued (note_id : string) : Dispatcher.task (H := floats) :=
  {| Dispatcher.t_note := note_id; Dispatcher.t_status := Dispatcher.Queued |}.

End Demo.

(** * Properties *)

(** ** matcher.py *)

Module MatcherFacts.







End MatcherFacts.

(** ** pipeline.py: the chunk planner *)

Module PlannerFacts.

Lemma py_range_unfold (i stop step : Z) :
  py_range i stop step =
  if decide (0 < step /\ i < stop) then i :: py_range (i + step) stop step else [].
Proof. funelim (py_range i stop step); by rewrite Heq. Qed.

Lemma py_range_concat {A} (t : list A) (k : Z) (m : nat) :
  0 < k -> forall i, 0 <= i -> (Z.to_nat (Z.of_nat (length t) - i) <= m)%nat ->
  concat (map (fun i => py_slice t i (i + k)) (py_range i (Z.of_nat (length t)) k))
  = drop (Z.to_nat i) t.
Proof.
  intros Hk. induction m as [|m IH]; intros i Hi Hm; rewrite py_range_unfold.
  - destruct (decide _) as [[_ ?]|Hn]; [lia|]. simpl.
    rewrite drop_ge; [done|lia].
  - destruct (decide _) as [[_ ?]|Hn]; simpl.
    + rewrite IH by lia. unfold py_slice.
      replace (Z.to_nat (i + k - i)) with (Z.to_nat k) by lia.
      replace (Z.to_nat (i + k)) with (Z.to_nat i + Z.to_nat k)%nat by lia.
      rewrite <- drop_drop. apply take_drop.
    + rewrite drop_ge; [done|lia].
Qed.

Lemma py_range_length (n k : Z) (m : nat) :
  0 < k -> forall i, i < n + k -> (Z.to_nat (n - i) <= m)%nat ->
  Z.of_nat (length (py_range i n k)) = (n - i + k - 1) / k.
Proof.
  intros Hk. induction m as [|m IH]; intros i Hi Hm; rewrite py_range_unfold.
  - destruct (decide _) as [[_ ?]|Hn]; [lia|]. simpl.
    symmetry. apply Z.div_small. lia.
  - destruct (decide _) as [[_ ?]|Hn]; simpl length.
    + rewrite Nat2Z.inj_succ, IH by lia.
      replace (n - i + k - 1) with (n - (i + k) + k - 1 + 1 * k) by lia.
      rewrite Z.div_add by lia. lia.
    + symmetry. apply Z.div_small. lia.
Qed.

Lemma py_slice_length {A} (t : list A) (i k : Z) :
  0 <= k -> Z.of_nat (length (py_slice t i (i + k))) <= k.
Proof.
  intros Hk. unfold py_slice. rewrite length_take. lia.
Qed.

(** C2.  With a cap [k > 0] the planner cuts a list of [n] targets into
    [ceil(n/k)] chunks of at most [k] names each, and the chunks put end to
    end are the list itself; with no cap, or a cap [<= 0], the list is the
    one chunk. *)
Theorem plan_chunks_partition (target_elements : list string) (cap : option Z) :
  (forall k, cap = Some k -> 0 < k ->
     Z.of_nat (length (plan_chunks cap target_elements))
       = (Z.of_nat (length target_elements) + k - 1) / k
     /\ Forall (fun chunk => Z.of_nat (length chunk) <= k) (plan_chunks cap target_elements)
     /\ concat (plan_chunks cap target_elements) = target_elements)
  /\ ((cap = None \/ exists k, cap = Some k /\ k <= 0) ->
      plan_chunks cap target_elements = [target_elements]).
Proof.
  split.
  - intros k -> Hk. unfold plan_chunks.
    destruct (decide _) as [_|Hn]; [|lia].
    split; [|split].
    + rewrite length_map.
      rewrite (py_range_length _ _ (length target_elements)) by lia.
      f_equal. lia.
    + apply Forall_map, Forall_forall. intros i _. simpl.
      apply py_slice_length. lia.
    + by rewrite (py_range_concat _ _ (length target_elements)) by lia.
  - intros [->|(k & -> & Hk)]; [done|]. unfold plan_chunks.
    destruct (decide _) as [?|_]; [lia|done].
Qed.

Lemma plan_chunks_partition_witness :
  plan_chunks (Some 2) ["a"; "b"; "c"; "d"; "e"] = [["a"; "b"]; ["c"; "d"]; ["e"]]
  /\ Z.of_nat (length (plan_chunks (Some 2) ["a"; "b"; "c"; "d"; "e"])) = (5 + 2 - 1) / 2
  /\ plan_chunks (Some 0) ["a"; "b"] = [["a"; "b"]].
Proof.
  split; [reflexivity|].
  destruct (plan_chunks_partition ["a"; "b"; "c"; "d"; "e"] (Some 2)) as [H _].
  destruct (H 2 eq_refl ltac:(lia)) as (Hlen & _ & _).
  split; [exact Hlen|].
  apply (plan_chunks_partition ["a"; "b"] (Some 0)).
  right. exists 0. split; [reflexivity|lia].
Defined.

End PlannerFacts.

(** ** pipeline.py: the retrying requester *)

Module RetryFacts.

Lemma retry_loop_unfold `{Runtime} (r : Z) (m : messages) (attempts : Z)
  (errors : list string) (w : world) :
  retry_loop r m attempts errors w =
  if decide (attempts <= r) then
    match call_client m w with
    | (CallOk p, w1) => (RetrySuccess p errors, w1)
    | (o, w1) =>
        retry_loop r m (attempts + 1)
          (errors ++ [attempt_label attempts +:+ failure_detail o])
          (backoff r (attempts + 1) w1)
    end
  else (RetryFailure errors, w).
Proof.
  funelim (retry_loop r m attempts errors w); rewrite Heq0 || rewrite Heq; try rewrite Heq; done.
Qed.

Lemma attempt_errors_cons `{Floats} (first : Z) (o : call_outcome) (os : list call_outcome) :
  attempt_errors first (o :: os)
  = (attempt_label first +:+ failure_detail o) :: attempt_errors (first + 1) os.
Proof.
  unfold attempt_errors. rewrite imap_cons. f_equal.
  - by rewrite Z.add_0_r.
  - apply imap_ext. intros j x _. simpl. do 2 f_equal. lia.
Qed.

Lemma attempt_errors_lookup `{Floats} (first : Z) (os : list call_outcome) (j : nat)
  (o : call_outcome) :
  os !! j = Some o ->
  attempt_errors first os !! j
  = Some (attempt_label (first + Z.of_nat j) +:+ failure_detail o).
Proof.
  intros Hj. unfold attempt_errors. rewrite list_lookup_imap, Hj. reflexivity.
Qed.

Lemma calls_in_app `{Runtime} (tr1 tr2 : list event) :
  calls_in (tr1 ++ tr2) = (calls_in tr1 + calls_in tr2)%nat.
Proof. unfold calls_in. by rewrite filter_app, length_app. Qed.

Lemma call_client_spec `{Runtime} (m : messages) (w : world) :
  exists o c, chat_completion (w_client w) m = (o, c)
    /\ call_client m w
       = (o, {| w_client := c; w_trace := w_trace w ++ [ECall m]; w_ledger := w_ledger w |}).
Proof.
  unfold call_client. destruct (chat_completion (w_client w) m) as [o c]. eauto.
Qed.

Lemma backoff_client `{Runtime} (r a : Z) (w : world) :
  w_client (backoff r a w) = w_client w
  /\ calls_in (w_trace (backoff r a w)) = calls_in (w_trace w).
Proof.
  unfold backoff. destruct (decide _); [|done]. simpl. split; [done|].
  rewrite calls_in_app. unfold calls_in at 2. simpl. lia.
Qed.

Lemma retry_loop_run `{Runtime} (r : Z) (m : messages) (n : nat) :
  forall (attempts : Z) (errors : list string) (w : world),
    Z.to_nat (r + 1 - attempts) = n ->
    let os := client_outcomes n (w_client w) m in
    let res := retry_loop r m attempts errors w in
    (calls_in (w_trace res.2) <= calls_in (w_trace w) + n)%nat
    /\ (forall fails p rest,
          os = fails ++ CallOk p :: rest -> Forall failed fails ->
          res.1 = RetrySuccess p (errors ++ attempt_errors attempts fails)
          /\ calls_in (w_trace res.2) = (calls_in (w_trace w) + length fails + 1)%nat)
    /\ (Forall failed os ->
          res.1 = RetryFailure (errors ++ attempt_errors attempts os)
          /\ calls_in (w_trace res.2) = (calls_in (w_trace w) + n)%nat).
Proof.
  induction n as [|n IH]; intros attempts errors w Hn; cbn zeta;
    rewrite retry_loop_unfold.
  - destruct (decide _) as [?|_]; [lia|]. simpl. split; [lia|]. split.
    + intros [|??] ???; discriminate.
    + intros _. rewrite app_nil_r. split; [done|lia].
  - destruct (decide _) as [_|?]; [|lia].
    destruct (call_client_spec m w) as (o & c & Hc & ->).
    cbn [client_outcomes]. rewrite Hc.
    set (w1 := {| w_client := c |}).
    assert (Hcalls : calls_in (w_trace w1) = (calls_in (w_trace w) + 1)%nat).
    { subst w1. simpl. rewrite calls_in_app. unfold calls_in at 2. simpl. lia. }
    assert (Hcl : w_client w1 = c) by done.
    clearbody w1.
    destruct o as [p|error|msg].
    + simpl. split; [lia|]. split.
      * intros [|o fails] p' rest Hos Hf.
        -- simplify_eq/=. rewrite app_nil_r. split; [done|lia].
        -- simplify_eq/=. apply Forall_cons in Hf as [[] _].
      * intros Hf. apply Forall_cons in Hf as [[] _].
    + destruct (backoff_client r (attempts + 1) w1) as [Hbc Hbt].
      specialize (IH (attempts + 1)
        (errors ++ [attempt_label attempts +:+ failure_detail (CallFail error)])
        (backoff r (attempts + 1) w1) ltac:(lia)).
      cbn zeta in IH. rewrite Hbc, Hbt, Hcalls, Hcl in IH.
      destruct IH as (IH1 & IH2 & IH3). split; [lia|]. split.
      * intros [|o fails] p' rest Hos Hf; [discriminate|].
        injection Hos as <- Hos. apply Forall_cons in Hf as [_ Hf].
        destruct (IH2 _ _ _ Hos Hf) as [-> ->].
        rewrite attempt_errors_cons, <- app_assoc. split; [done|simpl; lia].
      * intros Hf. apply Forall_cons in Hf as [_ Hf].
        destruct (IH3 Hf) as [-> ->].
        rewrite attempt_errors_cons, <- app_assoc. split; [done|lia].
    + destruct (backoff_client r (attempts + 1) w1) as [Hbc Hbt].
      specialize (IH (attempts + 1)
        (errors ++ [attempt_label attempts +:+ failure_detail (CallRaise msg)])
        (backoff r (attempts + 1) w1) ltac:(lia)).
      cbn zeta in IH. rewrite Hbc, Hbt, Hcalls, Hcl in IH.
      destruct IH as (IH1 & IH2 & IH3). split; [lia|]. split.
      * intros [|o fails] p' rest Hos Hf; [discriminate|].
        injection Hos as <- Hos. apply Forall_cons in Hf as [_ Hf].
        destruct (IH2 _ _ _ Hos Hf) as [-> ->].
        rewrite attempt_errors_cons, <- app_assoc. split; [done|simpl; lia].
      * intros Hf. apply Forall_cons in Hf as [_ Hf].
        destruct (IH3 Hf) as [-> ->].
        rewrite attempt_errors_cons, <- app_assoc. split; [done|lia].
Qed.

(** C3.  With [max_retries = r >= 0] the requester makes at most [r + 1]
    generation calls.  When the client's answers to the [r + 1] possible
    calls begin with [fails], all unsuccessful, and then a success [p], it
    returns success with [p] after [length fails + 1] calls, carrying one
    message per failed attempt.  When all [r + 1] answers are unsuccessful it
    returns failure with exactly [r + 1] messages, the [j]-th (from 0)
    being the text of attempt [j + 1] under the label "Attempt j+1: ". *)
Theorem retry_bounded_attempts `{Runtime} (bp : BatchProcessor) (m : messages) (w : world) :
  0 <= max_retries bp ->
  let n := Z.to_nat (max_retries bp + 1) in
  let os := client_outcomes n (w_client w) m in
  let result := (_call_llm_with_retry bp m w).1 in
  let w' := (_call_llm_with_retry bp m w).2 in
  (calls_in (w_trace w') <= calls_in (w_trace w) + n)%nat
  /\ (forall fails p rest,
        os = fails ++ CallOk p :: rest -> Forall failed fails ->
        result = RetrySuccess p (attempt_errors 0 fails)
        /\ calls_in (w_trace w') = (calls_in (w_trace w) + length fails + 1)%nat)
  /\ (Forall failed os ->
        result = RetryFailure (attempt_errors 0 os)
        /\ Z.of_nat (length (attempt_errors 0 os)) = max_retries bp + 1
        /\ (forall j o, os !! j = Some o ->
              attempt_errors 0 os !! j
              = Some (attempt_label (Z.of_nat j) +:+ failure_detail o))
        /\ calls_in (w_trace w') = (calls_in (w_trace w) + n)%nat).
Proof.
  intros Hr n os result w'.
  destruct (retry_loop_run (max_retries bp) m n 0 [] w ltac:(lia)) as (H1 & H2 & H3).
  fold os in H2, H3. unfold _call_llm_with_retry in *.
  split; [exact H1|]. split; [exact H2|].
  intros Hf. destruct (H3 Hf) as [Hres Hcalls].
  split; [exact Hres|]. split; [|split; [|exact Hcalls]].
  - unfold attempt_errors. rewrite length_imap.
    assert (length os = n) as ->; [|lia].
    subst os. clear. generalize (w_client w). induction n as [|n IH]; intros c; simpl; [done|].
    destruct (chat_completion c m). simpl. by rewrite IH.
  - intros j o Hj. by rewrite (attempt_errors_lookup 0 os j o Hj).
Qed.

Lemma retry_bounded_attempts_witness :
  (_call_llm_with_retry (H0 := Demo.runtime) Demo.bp0 ["a"] (Demo.world0 [])).1
  = RetryFailure ["Attempt 1: None"; "Attempt 2: None"; "Attempt 3: None"; "Attempt 4: None"]
  /\ calls_in (w_trace (_call_llm_with_retry (H0 := Demo.runtime) Demo.bp0 ["a"] (Demo.world0 [])).2) = 4%nat.
Proof.
  destruct (retry_bounded_attempts (H0 := Demo.runtime) Demo.bp0 ["a"] (Demo.world0 [])
              ltac:(simpl; lia)) as (_ & _ & H3).
  destruct H3 as (Hres & _ & _ & Hcalls).
  - simpl. repeat constructor.
  - split; [exact Hres | exact Hcalls].
Defined.

End RetryFacts.

(** ** pipeline.py: the document extractor *)

Module ExtractorFacts.

Lemma process_chunks_run `{Runtime} `{Regex} (bp : BatchProcessor)
  (note_id note_text : string) (n : nat) (chunks : list (list string)) :
  forall (i : nat) (a a' : acc) (w w' : world),
    process_chunks bp note_id note_text n i chunks a w = (Ok a', w') ->
    let crs := chunk_requests bp note_id note_text n i chunks w in
    overall_success a' = overall_success a && forallb parsed_truthy crs
    /\ merged_extraction a'
       = foldl (fun merged cr => chunk_fields bp note_text cr ∪ merged)
               (merged_extraction a) crs
    /\ all_errors a' = all_errors a ++ concat (map chunk_errors crs).
Proof.
  induction chunks as [|chunk rest IH]; intros i a a' w w' Hrun.
  - simpl in *. injection Hrun as <- <-. rewrite andb_true_r, app_nil_r. done.
  - cbn [process_chunks] in Hrun. cbn [chunk_requests]. cbn zeta.
    unfold process_chunk in Hrun. cbn zeta in Hrun.
    destruct (_call_llm_with_retry bp _ _) as [r w1] eqn:Hreq.
    cbn [map concat forallb foldl].
    unfold parsed_truthy at 1, chunk_fields at 2, chunk_errors at 1.
    cbn [fst snd].
    destruct r as [p errs|errs].
    + destruct (_parse_response p) as [raw perr] eqn:Hparse. cbn [fst snd].
      destruct (py_truthy raw) eqn:Htruthy.
      * destruct (_post_process_extraction bp raw note_text (Some chunk))
          as [processed|e] eqn:Hpost; [|discriminate].
        apply IH in Hrun as (Hs & Hm & He).
        cbn [overall_success merged_extraction all_errors r_errors] in Hs, Hm, He.
        rewrite Hs, Hm, He, app_nil_r, <- app_assoc. done.
      * apply IH in Hrun as (Hs & Hm & He).
        cbn [overall_success merged_extraction all_errors r_errors] in Hs, Hm, He.
        rewrite Hs, Hm, He, <- !app_assoc, (left_id_L ∅ (∪)).
        by rewrite andb_false_r.
    + apply IH in Hrun as (Hs & Hm & He).
      cbn [overall_success merged_extraction all_errors r_errors] in Hs, Hm, He.
      rewrite Hs, Hm, He, <- !app_assoc, (left_id_L ∅ (∪)).
      by rewrite andb_false_r.
Qed.

Lemma process_note_run `{Runtime} `{Regex} (bp : BatchProcessor)
  (note_id note_text : string) (element_names : option (list string))
  (w w' : world) (out : output) :
  process_note bp note_id note_text element_names w = (Ok out, w') ->
  let chunks :=
    plan_chunks (max_elements_per_request bp)
      (resolve_targets (schema bp) element_names) in
  let crs := chunk_requests bp note_id note_text (length chunks) 0 chunks w in
  success out = forallb parsed_truthy crs
  /\ extraction out = union_of_fields bp note_text crs
  /\ errors out = concat (map chunk_errors crs)
  /\ o_id out = note_id.
Proof.
  intros Hrun chunks crs. unfold process_note in Hrun. cbn zeta in Hrun.
  fold chunks in Hrun.
  destruct (process_chunks _ _ _ _ _ _ _ _) as [[a|e] w1] eqn:Hc; [|discriminate].
  apply process_chunks_run in Hc as (Hs & Hm & He).
  injection Hrun as <- _. cbn [success extraction errors o_id].
  rewrite Hs, Hm, He. done.
Qed.

Lemma parsed_truthy_valid `{Runtime} (cr : list string * retry_result) :
  parsed_truthy cr = true -> parsed_valid cr.
Proof.
  unfold parsed_truthy, parsed_valid, _parse_response.
  destruct (cr.2) as [p errs|errs]; [|done].
  destruct (json_loads _) as [e|v]; [done|]. eauto.
Qed.

(** What [process_note] returns is marked successful exactly when every
    chunk's request succeeded and its response decoded to a value that is
    true in a condition; the merged extraction is the union of the fields of
    those chunks, whatever [success] says. *)
Theorem process_note_success_iff `{Runtime} `{Regex} (bp : BatchProcessor)
  (note_id note_text : string) (element_names : option (list string))
  (w w' : world) (out : output) :
  process_note bp note_id note_text element_names w = (Ok out, w') ->
  let chunks :=
    plan_chunks (max_elements_per_request bp)
      (resolve_targets (schema bp) element_names) in
  let crs := chunk_requests bp note_id note_text (length chunks) 0 chunks w in
  (success out = true <-> Forall (fun cr => parsed_truthy cr = true) crs)
  /\ (success out = true -> Forall parsed_valid crs)
  /\ extraction out = union_of_fields bp note_text crs.
Proof.
  intros Hrun chunks crs.
  destruct (process_note_run _ _ _ _ _ _ _ Hrun) as (Hs & Hm & _ & _).
  fold chunks crs in Hs, Hm. split; [|split; [|done]].
  - rewrite Hs, forallb_forall, Forall_forall.
    split; intros Hall cr Hin; apply Hall; by apply list_elem_of_In.
  - rewrite Hs, forallb_forall, Forall_forall. intros Hall cr Hin.
    apply parsed_truthy_valid, Hall. by apply list_elem_of_In.
Qed.

Lemma dict_has_get {A} (k : string) (d : list (string * A)) (v : A) :
  dict_get k d = Some v -> dict_has k d = true.
Proof. unfold dict_has. by intros ->. Qed.

Lemma post_process_loop_keeps `{Runtime} `{Regex} (bp : BatchProcessor)
  (d : list (string * json)) (note_text : string) (k : string)
  (el : ExtractionElement) (rv : json) (it : item_output) (targets : list string) :
  get_element (schema bp) k = Some el ->
  dict_get k d = Some rv ->
  build_item bp el note_text rv = Ok it ->
  forall acc processed,
    post_process_loop bp (JObj d) note_text targets acc = Ok processed ->
    acc !! k = Some it ->
    processed !! k = Some it.
Proof.
  intros Hel Hrv Hit.
  induction targets as [|h rest IH]; intros acc processed Hrun Hacc; simpl in Hrun.
  - by injection Hrun as <-.
  - destruct (get_element (schema bp) h) as [el'|] eqn:Hel'; [|by eapply IH].
    destruct (dict_has h d) eqn:Hhas; simpl in Hrun; [|by eapply IH].
    destruct (dict_get h d) as [rv'|] eqn:Hrv'; simpl in Hrun; [|done].
    destruct (build_item bp el' note_text rv') as [it'|e] eqn:Hit'; simpl in Hrun; [|done].
    eapply IH; [done|].
    destruct (decide (h = k)) as [->|Hne].
    + rewrite lookup_insert_eq. congruence.
    + by rewrite lookup_insert_ne.
Qed.

Lemma post_process_loop_lookup `{Runtime} `{Regex} (bp : BatchProcessor)
  (d : list (string * json)) (note_text : string) (k : string)
  (el : ExtractionElement) (rv : json) (targets : list string) :
  get_element (schema bp) k = Some el ->
  dict_get k d = Some rv ->
  k ∈ targets ->
  forall acc processed,
    post_process_loop bp (JObj d) note_text targets acc = Ok processed ->
    exists it, build_item bp el note_text rv = Ok it /\ processed !! k = Some it.
Proof.
  intros Hel Hrv.
  induction targets as [|h rest IH]; intros Hin acc processed Hrun.
  - by apply elem_of_nil in Hin.
  - simpl in Hrun. destruct (decide (h = k)) as [->|Hne].
    + rewrite Hel, (dict_has_get _ _ _ Hrv) in Hrun. simpl in Hrun.
      rewrite Hrv in Hrun. simpl in Hrun.
      destruct (build_item bp el note_text rv) as [it|e] eqn:Hit; simpl in Hrun; [|done].
      exists it. split; [done|].
      eapply post_process_loop_keeps; [done..|]. by rewrite lookup_insert_eq.
    + apply elem_of_cons in Hin as [->|Hin]; [done|].
      destruct (get_element (schema bp) h) as [el'|] eqn:Hel'; [|by eapply IH].
      destruct (dict_has h d) eqn:Hhas; simpl in Hrun; [|by eapply IH].
      destruct (dict_get h d) as [rv'|] eqn:Hrv'; simpl in Hrun; [|done].
      destruct (build_item bp el' note_text rv') as [it'|e] eqn:Hit'; simpl in Hrun; [|done].
      by eapply IH.
Qed.

Lemma build_item_answer `{Runtime} `{Regex} (bp : BatchProcessor) (el : ExtractionElement)
  (note_text : string) (rv : json) (it : item_output) :
  build_item bp el note_text rv = Ok it ->
  io_answer it = (split_raw_val rv).1.1.
Proof.
  unfold build_item. destruct (split_raw_val rv) as [[answer reasoning] grounding_text].
  destruct (_ && _); simpl.
  - destruct (grounding_snippets _); simpl; [|done].
    destruct (ground_all _ _ _ _); simpl; [|done]. by intros [= <-].
  - by intros [= <-].
Qed.

(** C10.  For a requested field whose raw value is an object: when the
    object has both an "answer" and a "value" key the field's answer is the
    value under "answer"; the value under "value" is used when "answer" is
    absent. *)
Theorem answer_key_precedes_value `{Runtime} `{Regex} (bp : BatchProcessor)
  (d f : list (string * json)) (note_text : string)
  (element_names : option (list string)) (k : string) (el : ExtractionElement)
  (processed : gmap string item_output) :
  _post_process_extraction bp (JObj d) note_text element_names = Ok processed ->
  k ∈ resolve_targets (schema bp) element_names ->
  get_element (schema bp) k = Some el ->
  dict_get k d = Some (JObj f) ->
  (forall a v, dict_get "answer" f = Some a -> dict_get "value" f = Some v ->
     exists it, processed !! k = Some it /\ io_answer it = a)
  /\ (forall v, dict_get "answer" f = None -> dict_get "value" f = Some v ->
     exists it, processed !! k = Some it /\ io_answer it = v).
Proof.
  intros Hrun Hin Hel Hrv. unfold _post_process_extraction in Hrun.
  destruct (post_process_loop_lookup bp d note_text k el (JObj f) _ Hel Hrv Hin _ _ Hrun)
    as (it & Hit & Hlook).
  apply build_item_answer in Hit.
  split.
  - intros a v Ha Hv. exists it. split; [done|]. rewrite Hit. simpl.
    rewrite (dict_has_get _ _ _ Ha). simpl. by rewrite Ha.
  - intros v Ha Hv. exists it. split; [done|]. rewrite Hit. simpl.
    rewrite (dict_has_get _ _ _ Hv), orb_true_r. simpl. by rewrite Ha, Hv.
Qed.










Lemma answer_key_precedes_value_witness :
  exists it,
    ({[ "a" := {| io_answer := JStr "x"; io_reasoning := None; io_grounding := None |} ]}
       : gmap string item_output) !! "a" = Some it
    /\ io_answer it = JStr "x".
Proof.
  destruct (answer_key_precedes_value (H0 := Demo.runtime) (H1 := Demo.regex)
              (Demo.processor None)
              [("a", JObj [("answer", JStr "x"); ("value", JStr "y")])]
              [("answer", JStr "x"); ("value", JStr "y")]
              "text" (Some ["a"]) "a"
              {| el_name := "a"; el_description := "first";
                 el_grounding := false; el_reasoning := false |}
              {[ "a" := {| io_answer := JStr "x"; io_reasoning := None;
                           io_grounding := None |} ]})
    as [Hboth _].
  - reflexivity.
  - apply elem_of_cons. by left.
  - reflexivity.
  - reflexivity.
  - exact (Hboth (JStr "x") (JStr "y") eq_refl eq_refl).
Defined.

(** C1, at a reply whose content is the empty JSON object: the one chunk's
    request succeeds and its response decodes, and the document comes back
    with [success] false and a "Failed to parse" entry whose reason is
    [None]. *)
Theorem empty_object_marked_failed :
  let w := Demo.world0 [CallOk (Demo.reply "{}")] in
  let bp := Demo.processor None in
  let crs := chunk_requests (H0 := Demo.runtime) bp "n1" "text" 1 0 [["a"; "b"]] w in
  plan_chunks (max_elements_per_request bp) (resolve_targets (schema bp) None)
    = [["a"; "b"]]
  /\ crs = [(["a"; "b"], RetrySuccess (Demo.reply "{}") [])]
  /\ Forall (parsed_valid (H0 := Demo.runtime)) crs
  /\ exists out w',
       process_note (H0 := Demo.runtime) (H1 := Demo.regex) bp "n1" "text" None w
       = (Ok out, w')
       /\ success out = false
       /\ errors out = ["Failed to parse JSON response for chunk [a, b]: None"].
Proof.
  cbn zeta. split; [reflexivity|]. split; [reflexivity|]. split.
  - change (chunk_requests _ _ _ _ _ _ _) with
      [(["a"; "b"], RetrySuccess (H := Demo.floats) (Demo.reply "{}") [])].
    constructor; [|constructor]. exists (JObj []). reflexivity.
  - eexists _, _. split; [vm_compute; reflexivity|]. split; reflexivity.
Qed.

End ExtractorFacts.

(** ** pipeline.py: the resume ledger *)

Module LedgerFacts.

Lemma load_lines_records (lines : list (option json)) :
  Forall record_line lines ->
  forall ids, load_lines lines ids = Ok (ids ∪ ledger_ids lines).
Proof.
  induction 1 as [|line lines (d & -> & Hkey) _ IH]; intros ids; simpl.
  - by rewrite (right_id_L ∅ (∪)).
  - unfold dict_has. destruct (dict_get "id" d) as [v|] eqn:Hid; simpl.
    + destruct (Hkey v eq_refl) as [k Hk]. rewrite Hk, IH. f_equal.
      by rewrite (comm_L (∪) {[ k ]} ids), (assoc_L (∪)).
    + apply IH.
Qed.

Lemma load_lines_rejects (lines : list (option json)) :
  None ∈ lines -> forall ids, exists e, load_lines lines ids = Raise e.
Proof.
  induction lines as [|line lines IH]; intros Hin ids.
  - by apply elem_of_nil in Hin.
  - destruct line as [obj|]; simpl; [|eauto].
    apply elem_of_cons in Hin as [?|Hin]; [done|].
    destruct (py_in_str "id" obj) as [ [ | ] | e ]; simpl; [| by apply IH | eauto].
    destruct (py_getitem_str "id" obj) as [v|e]; simpl; [|eauto].
    destruct (to_key v); [by apply IH|eauto].
Qed.

(** C6, as the code has it.  A missing output file leaves the id set
    empty and raises nothing; a file whose every line is a JSON object
    (with a hashable id, when it has one) gives the set of the ids on its
    lines; a file with a line the reader rejects makes the load raise. *)
Theorem load_completed_ids_outcomes (lines : list (option json)) :
  _load_completed_ids NoFile ∅ = Ok ∅
  /\ (Forall record_line lines ->
        _load_completed_ids (File lines) ∅ = Ok (ledger_ids lines))
  /\ (None ∈ lines -> exists e, _load_completed_ids (File lines) ∅ = Raise e).
Proof.
  split; [done|]. split.
  - intros Hl. simpl. rewrite load_lines_records by done.
    by rewrite (left_id_L ∅ (∪)).
  - intros Hin. by apply load_lines_rejects.
Qed.

Lemma load_completed_ids_outcomes_witness :
  _load_completed_ids
    (File [Some (JObj [("id", JStr "A"); ("success", JBool true)]);
           Some (JObj [("note", JStr "no id")])]) ∅
  = Ok {[ KStr "A" ]}
  /\ exists e, _load_completed_ids (File [Some (JObj [("id", JStr "A")]); None]) ∅ = Raise e.
Proof.
  split.
  - destruct (load_completed_ids_outcomes
      [Some (JObj [("id", JStr "A"); ("success", JBool true)]);
       Some (JObj [("note", JStr "no id")])]) as (_ & Hgood & _).
    rewrite Hgood.
    + simpl. by rewrite (right_id_L ∅ (∪)).
    + repeat constructor; eexists; (split; [reflexivity|]); intros v [= <-]; by eexists.
  - apply (load_completed_ids_outcomes [Some (JObj [("id", JStr "A")]); None]).
    apply elem_of_cons. right. apply elem_of_cons. by left.
Defined.

(** C6 as stated fails: a line the reader rejects makes the load raise. *)
Lemma load_completed_ids_raises :
  _load_completed_ids (File [Some (JObj [("id", JStr "A")]); None]) ∅
    = Raise InvalidLineError
  /\ ~ (forall f : ledger_file, exists ids, _load_completed_ids f ∅ = Ok ids).
Proof.
  split; [reflexivity|].
  intros Hall. destruct (Hall (File [None])) as [ids Hids]. discriminate.
Qed.

End LedgerFacts.

(** ** pipeline.py: the dispatcher *)

Module DispatcherFacts.
Import Dispatcher.

Lemma running_insert `{Floats} (ts : list task) (i : nat) (t t' : task) :
  ts !! i = Some t ->
  (running (<[i := t']> ts) + (if holds_permit t then 1 else 0)
   = running ts + (if holds_permit t' then 1 else 0))%nat.
Proof.
  intros Hi. unfold running.
  rewrite insert_take_drop by (by eapply lookup_lt_Some).
  assert (Hts : filter (fun t => holds_permit t = true) ts
                = filter (fun t => holds_permit t = true)
                    (take i ts ++ t :: drop (S i) ts))
    by (by rewrite take_drop_middle).
  rewrite Hts, !filter_app, !filter_cons, !length_app.
  destruct (holds_permit t), (holds_permit t'); repeat case_decide; try done; simpl; lia.
Qed.

Lemma running_app `{Floats} (ts : list task) (t : task) :
  running (ts ++ [t]) = (running ts + (if holds_permit t then 1 else 0))%nat.
Proof.
  unfold running. rewrite filter_app, length_app, filter_cons.
  destruct (holds_permit t); case_decide; try done; simpl; lia.
Qed.

Lemma filter_done_split `{Floats} (ts : list task) (pend : list nat) :
  (length (filter (fun i => is_done ts i = true) pend)
   + length (filter (fun i => not_done ts i = true) pend) = length pend)%nat.
Proof.
  induction pend as [|i pend IH]; [done|].
  rewrite !filter_cons.
  repeat case_decide; unfold not_done in *; destruct (is_done ts i);
    simpl in *; try done; lia.
Qed.

Lemma bound_inv_init `{Floats} (bp : BatchProcessor) (notes : list (string * string)) :
  bound_inv bp (init bp notes).
Proof. unfold bound_inv, pending_bound. simpl. unfold running. simpl. lia. Qed.

Lemma bound_inv_step `{Floats} (bp : BatchProcessor) (s s' : dstate) :
  bound_inv bp s -> step bp s s' -> bound_inv bp s'.
Proof.
  unfold bound_inv, pending_bound. intros (Hv & Hb & Hb') Hstep.
  inversion Hstep; subst; cbn [sem_value tasks pending_tasks pc] in *.
  - split; [done|]. split; [done|]. intros _. by apply Hb'.
  - specialize (Hb' ltac:(done)). rewrite running_app. cbn [holds_permit t_status].
    rewrite length_app. cbn [length].
    split; [lia|]. split; [lia|].
    unfold after_submit. rewrite length_app. cbn [length].
    destruct (decide _); [done|]. intros _. lia.
  - split; [done|]. split; [done|]. intros _. by apply Hb'.
  - pose proof (filter_done_split ts pend) as Hsplit.
    assert (0 < length done)%nat as Hdone by (destruct done; [done|simpl; lia]).
    match goal with Hp : done ≡ₚ _ |- _ => rewrite <- Hp in Hsplit end.
    split; [done|]. split; [lia|]. intros _. lia.
  - split; [done|]. split; [done|]. intros _. by apply Hb'.
  - split; [done|]. split; [done|]. intros _. by apply Hb'.
  - split; [done|]. split; [done|]. intros _. apply Hb'. done.
  - match goal with Hl : ts !! _ = Some _ |- _ =>
      pose proof (running_insert ts _ _ {| t_note := note_id; t_status := Running |} Hl) as Hr
    end.
    cbn [holds_permit t_status] in Hr. split; [lia|]. split; [done|done].
  - done.
  - match goal with Hl : ts !! _ = Some _ |- _ =>
      pose proof (running_insert ts _ _ {| t_note := note_id; t_status := Done r |} Hl) as Hr
    end.
    cbn [holds_permit t_status] in Hr. split; [lia|]. split; [done|done].
Qed.

Lemma reachable_bound_inv `{Floats} (bp : BatchProcessor) (notes : list (string * string))
  (s : dstate) : reachable bp notes s -> bound_inv bp s.
Proof.
  intros Hr. eapply (rtc_ind_r (fun s => bound_inv bp s)); [| |exact Hr].
  - apply bound_inv_init.
  - intros s1 s2 _ Hstep IH. by eapply bound_inv_step.
Qed.

(** C8, as the code has it.  In every state the dispatcher can reach, the
    set of outstanding tasks holds at most [max (2C) 1] tasks, [C] being
    the number of permits.  A submission that leaves the set with [2C]
    tasks or more sends the dispatcher to [asyncio.wait]; while it waits,
    no input is pulled, and it leaves the wait exactly with a non-empty list
    of finished tasks, the unfinished ones staying outstanding; that
    wake-up is possible as soon as one outstanding task has finished. *)
Theorem pending_set_bounded `{Floats} (bp : BatchProcessor)
  (notes : list (string * string)) (s : dstate) :
  reachable bp notes s ->
  let C := max_parallel_requests bp in
  (length (pending_tasks s) <= Nat.max (2 * C) 1)%nat
  /\ ((1 <= C)%nat -> (length (pending_tasks s) <= 2 * C)%nat)
  /\ (forall note_id note_text inp ts pend v out calls pb s',
        s = DState ((note_id, note_text) :: inp) ts pend v AtPull out calls pb ->
        step bp s s' ->
        (2 * C <= length (pending_tasks s'))%nat ->
        length (tasks s') = S (length ts) ->
        pc s' = AtWait false)
  /\ (forall draining s',
        pc s = AtWait draining -> step bp s s' ->
        input s' = input s
        /\ ((pc s' = AtWait draining /\ pending_tasks s' = pending_tasks s)
            \/ exists done,
                 done <> []
                 /\ pc s' = AtYield draining done
                 /\ Forall (fun i => is_done (tasks s) i = true) done
                 /\ pending_tasks s'
                    = filter (fun i => not_done (tasks s) i = true) (pending_tasks s)))
  /\ (forall draining done,
        pc s = AtWait draining -> done <> [] ->
        done ≡ₚ filter (fun i => is_done (tasks s) i = true) (pending_tasks s) ->
        exists s',
          step bp s s' /\ pc s' = AtYield draining done
          /\ pending_tasks s'
             = filter (fun i => not_done (tasks s) i = true) (pending_tasks s)).
Proof.
  intros Hr C. pose proof (reachable_bound_inv _ _ _ Hr) as (Hv & Hb & _).
  split; [exact Hb|]. split; [|split; [|split]].
  - unfold pending_bound in Hb. fold C in Hb. lia.
  - intros note_id note_text inp ts pend v out calls pb s' -> Hstep Hfull Hlen.
    cbn [sem_value tasks] in Hv.
    inversion Hstep; subst; cbn [pending_tasks tasks pc] in *.
    + lia.
    + unfold after_submit. destruct (decide _) as [_|Hn]; [done|]. subst C. lia.
    + rewrite length_insert in Hlen. lia.
    + lia.
    + rewrite length_insert in Hlen. lia.
  - intros draining s' Hpc Hstep.
    inversion Hstep; subst; cbn [pc input pending_tasks tasks] in *;
      try discriminate; (split; [done|]); try (left; by split).
    injection Hpc as ->. right. exists done. split; [done|]. split; [done|].
    split; [|done].
    match goal with Hp : done ≡ₚ _ |- _ => rewrite Hp end.
    apply Forall_forall. intros i Hi. by apply list_elem_of_filter in Hi as [Hi _].
  - intros draining done Hpc Hne Hperm. destruct s as [inp ts pend v p out calls pb].
    cbn [pc tasks pending_tasks] in *. subst p.
    eexists. split; [by apply d_wake|]. by split.
Qed.

Lemma skip_inv_step `{Floats} (bp : BatchProcessor) (s s' : dstate) :
  skip_inv bp s -> step bp s s' -> skip_inv bp s'.
Proof.
  unfold skip_inv. intros (Ht & Hd & Hy) Hstep.
  inversion Hstep; subst; cbn [tasks yielded] in *; try (by repeat split).
  - split; [|split; [|done]].
    + intros i t Hi. apply lookup_app_Some in Hi as [Hi|[_ Hi]]; [by eapply Ht|].
      apply list_lookup_singleton_Some in Hi as [_ <-]. done.
    + intros i nid r Hi. apply lookup_app_Some in Hi as [Hi|[_ Hi]]; [by eapply Hd|].
      by apply list_lookup_singleton_Some in Hi as [_ ?].
  - split; [done|]. split; [done|]. apply Forall_app. split; [done|].
    constructor; [|done].
    match goal with Hl : ts !! _ = Some _ |- _ =>
      rewrite (Hd _ _ _ Hl); apply (Ht _ _ Hl) end.
  - match goal with Hl : ts !! _ = Some _ |- _ => pose proof (Ht _ _ Hl) as Hq end.
    split; [|split; [|done]].
    + intros j t Hj. apply list_lookup_insert_Some in Hj as [(_ & <- & _)|[_ Hj]];
        [done|by eapply Ht].
    + intros j nid r Hj. apply list_lookup_insert_Some in Hj as [(_ & ? & _)|[_ Hj]];
        [done|by eapply Hd].
  - match goal with Hl : ts !! _ = Some _ |- _ => pose proof (Ht _ _ Hl) as Hq end.
    split; [|split; [|done]].
    + intros j t Hj. apply list_lookup_insert_Some in Hj as [(_ & <- & _)|[_ Hj]];
        [done|by eapply Ht].
    + intros j nid r' Hj. apply list_lookup_insert_Some in Hj as [(_ & Heq & _)|[_ Hj]];
        [|by eapply Hd].
      injection Heq as <- ->. eauto.
Qed.

Lemma reachable_skip_inv `{Floats} (bp : BatchProcessor) (notes : list (string * string))
  (s : dstate) : reachable bp notes s -> skip_inv bp s.
Proof.
  intros Hr. eapply (rtc_ind_r (fun s => skip_inv bp s)); [| |exact Hr].
  - unfold skip_inv. simpl. split; [|split]; [by intros ? ? ?|by intros ? ? ? ?|done].
  - intros s1 s2 _ Hstep IH. by eapply skip_inv_step.
Qed.

Lemma idle_inv_step `{Floats} (bp : BatchProcessor) (s s' : dstate) :
  idle_inv bp s -> step bp s s' -> idle_inv bp s'.
Proof.
  unfold idle_inv. intros (Hin & Hts & Hp & Hy & Hc & Hpc) Hstep.
  inversion Hstep; subst; cbn [input tasks pending_tasks yielded llm_calls pc] in *;
    subst; try (destruct Hpc; discriminate); try discriminate;
    try match goal with Hl : [] !! _ = Some _ |- _ => by rewrite lookup_nil in Hl end.
  - apply Forall_cons in Hin as [_ Hin]. repeat split; try done; by left.
  - apply Forall_cons in Hin as [Hcov _]. done.
  - repeat split; try done. by right.
Qed.

Lemma reachable_idle_inv `{Floats} (bp : BatchProcessor) (notes : list (string * string))
  (s : dstate) :
  Forall (covered bp) notes -> reachable bp notes s -> idle_inv bp s.
Proof.
  intros Hall Hr. eapply (rtc_ind_r (fun s => idle_inv bp s)); [| |exact Hr].
  - unfold idle_inv. simpl. repeat split; try done; by left.
  - intros s1 s2 _ Hstep IH. by eapply idle_inv_step.
Qed.

Lemma skip_all `{Floats} (bp : BatchProcessor) (v : Z) (notes : list (string * string)) :
  Forall (covered bp) notes ->
  forall pb,
    rtc (step bp) (DState notes [] [] v AtPull [] 0 pb)
                  (DState [] [] [] v Finished [] 0 (pb + length notes)).
Proof.
  induction 1 as [|[note_id note_text] notes Hc _ IH]; intros pb.
  - simpl. rewrite Nat.add_0_r. apply rtc_once. apply (d_exhausted bp [] [] v [] 0%nat pb).
  - eapply rtc_l; [by apply d_skip|].
    replace (pb + length ((note_id, note_text) :: notes))%nat
      with (S pb + length notes)%nat by (simpl; lia).
    apply IH.
Qed.

(** C4.  In every state the dispatcher can reach, a note whose id is in
    the resume set has not been submitted and no yielded result carries its
    id.  When the resume set covers every note of the input, no task exists,
    nothing has been yielded and no generation call has been made, and the
    run can only go on to end with nothing yielded and no call made. *)
Theorem completed_notes_skipped `{Floats} (bp : BatchProcessor)
  (notes : list (string * string)) (s : dstate) :
  reachable bp notes s ->
  (forall note_id,
     KStr note_id ∈ completed_ids bp ->
     (note_id ∉ submitted s) /\ Forall (fun r => o_id r <> note_id) (yielded s))
  /\ (Forall (covered bp) notes ->
      tasks s = [] /\ yielded s = [] /\ llm_calls s = 0%nat
      /\ exists s_end,
           rtc (step bp) s s_end /\ pc s_end = Finished
           /\ yielded s_end = [] /\ llm_calls s_end = 0%nat).
Proof.
  intros Hr. split.
  - intros note_id Hin. destruct (reachable_skip_inv _ _ _ Hr) as (Ht & _ & Hy). split.
    + unfold submitted. intros Hsub. apply list_elem_of_fmap in Hsub as (t & -> & Ht').
      apply list_elem_of_lookup in Ht' as [i Hi]. by apply (Ht _ _ Hi).
    + eapply Forall_impl; [exact Hy|]. intros r Hr' Heq. simpl in Hr'. by rewrite Heq in Hr'.
  - intros Hall. destruct (reachable_idle_inv _ _ _ Hall Hr) as (Hin & Hts & Hp & Hy & Hc & Hpc).
    split; [done|]. split; [done|]. split; [done|].
    destruct s as [inp ts pend v p out calls pb]. simpl in *. subst.
    destruct Hpc as [-> | ->].
    + eexists. split; [by apply skip_all|]. done.
    + eexists. split; [apply rtc_refl|]. done.
Qed.

Lemma completed_notes_skipped_witness :
  let bp := Demo.make 5 1 None {[ KStr "A" ]} in
  let s := DState (H := Demo.floats) [] [] [] 5 AtPull [] 0 1 in
  reachable bp [("A", "first note")] s
  /\ ("A" ∉ submitted s)
  /\ exists s_end, rtc (step bp) s s_end /\ pc s_end = Finished /\ yielded s_end = [].
Proof.
  cbn zeta.
  assert (Hin : KStr "A" ∈ completed_ids (Demo.make 5 1 None {[ KStr "A" ]}))
    by (simpl; by apply elem_of_singleton_2).
  assert (Hr : reachable (H := Demo.floats) (Demo.make 5 1 None {[ KStr "A" ]})
                 [("A", "first note")]
                 (DState (H := Demo.floats) [] [] [] 5 AtPull [] 0 1)).
  { apply rtc_once. by apply d_skip. }
  destruct (completed_notes_skipped _ _ _ Hr) as [Hskip Hall].
  split; [exact Hr|]. split; [exact (proj1 (Hskip "A" Hin))|].
  destruct Hall as (_ & _ & _ & s_end & Hrun & Hfin & Hy & _).
  { by repeat constructor. }
  by exists s_end.
Defined.

Lemma pending_set_bounded_witness :
  let bp := Demo.make 1 1 None ∅ in
  let s := DState (H := Demo.floats) [] [Demo.queued "d1"; Demo.queued "d2"] [0; 1]%nat
             1 (AtWait false) [] 0 0 in
  reachable bp [("d1", "one"); ("d2", "two")] s
  /\ (length (pending_tasks s) <= 2)%nat.
Proof.
  cbn zeta.
  assert (Hr : reachable (H := Demo.floats) (Demo.make 1 1 None ∅)
                 [("d1", "one"); ("d2", "two")]
                 (DState (H := Demo.floats) []
                    [Demo.queued "d1"; Demo.queued "d2"] [0; 1]%nat
                    1 (AtWait false) [] 0 0)).
  { eapply rtc_l.
    - apply (d_submit _ "d1" "one" [("d2", "two")] [] [] 1 [] 0%nat 0%nat).
      apply not_elem_of_empty.
    - apply rtc_once.
      apply (d_submit _ "d2" "two" [] [Demo.queued "d1"] [0%nat] 1 [] 0%nat 0%nat).
      apply not_elem_of_empty. }
  split; [exact Hr|].
  exact (proj1 (pending_set_bounded _ _ _ Hr)).
Defined.

(** C8 as stated fails for a cap of zero: the first submitted task is
    awaited while it is outstanding, and one task is more than twice zero. *)
Lemma pending_exceeds_twice_zero_cap :
  let bp := Demo.make 0 1 None ∅ in
  let s := DState (H := Demo.floats) [] [Demo.queued "d1"] [0%nat] 0 (AtWait false) [] 0 0 in
  reachable bp [("d1", "one")] s
  /\ pc s = AtWait false
  /\ ~ (length (pending_tasks s) <= 2 * max_parallel_requests bp)%nat.
Proof.
  cbn zeta. split; [|split; [reflexivity|simpl; lia]].
  apply rtc_once.
  apply (d_submit _ "d1" "one" [] [] [] 0 [] 0%nat 0%nat).
  apply not_elem_of_empty.
Qed.

End DispatcherFacts.

(** ** pipeline.py: the synchronous bridge *)

Module BridgeFacts.
Import SyncBridge.

Lemma faithful_step `{Floats} (fin : batch_end) (s s' : bstate) :
  faithful fin s -> bstep s s' -> faithful fin s'.
Proof.
  unfold faithful. intros (Hw & Hq & Hc) Hstep.
  inversion Hstep; subst; cbn [bg queue fg] in *;
    (split; [|split]); try done; try (intros; by eauto).
  - intros rs' f [= <- <-]. by eapply Hw.
  - intros e He. apply elem_of_app in He as [He|He]; [by apply Hq|].
    by apply list_elem_of_singleton in He.
  - intros e' He. apply elem_of_app in He as [He|He]; [by apply Hq|].
    apply list_elem_of_singleton in He as [= <-]. symmetry. by eapply Hw.
  - intros e He. apply elem_of_app in He as [He|He]; [by apply Hq|].
    by apply list_elem_of_singleton in He.
  - intros e He. apply Hq. by right.
  - intros e' He. apply Hq. by right.
  - intros e' [= <-]. apply Hq. by left.
  - intros e He. apply Hq. by right.
Qed.

(** Whatever the schedule, an exception the consumer raises is the very
    exception the batch ended with. *)
Lemma bridge_raises_the_same `{Floats} (results : list output) (fin : batch_end)
  (s : bstate) (e : exn) :
  rtc bstep (binit results fin) s -> fg s = CRaised e -> fin = EndException e.
Proof.
  intros Hr. assert (Hf : faithful fin s).
  { eapply (rtc_ind_r (fun s => faithful fin s)); [| |exact Hr].
    - unfold faithful. simpl. split; [|split].
      + by intros rs f [= _ <-].
      + intros e' He. by apply elem_of_nil in He.
      + done.
    - intros s1 s2 _ Hstep IH. by eapply faithful_step. }
  by apply Hf.
Qed.

Lemma worker_relays `{Floats} (fin : batch_end) (c : consumer) (out : list output)
  (results : list output) :
  forall q,
    rtc bstep (BState q (WRelay results fin) c out)
              (BState (q ++ all_msgs results fin) WExited c out).
Proof.
  unfold all_msgs. induction results as [|r rs IH]; intros q.
  - simpl. destruct fin as [|e|]; simpl.
    + eapply rtc_l; [apply w_end_normal|]. eapply rtc_l; [apply w_done|].
      apply rtc_once. apply w_exit.
    + eapply rtc_l; [apply w_end_exception|]. eapply rtc_l; [apply w_done|].
      rewrite <- app_assoc. apply rtc_once. apply w_exit.
    + eapply rtc_l; [apply w_end_cancelled|]. eapply rtc_l; [apply w_done|].
      apply rtc_once. apply w_exit.
  - eapply rtc_l; [apply w_item|]. specialize (IH (q ++ [MItem r])).
    rewrite <- app_assoc in IH. exact IH.
Qed.

Lemma consumer_drains `{Floats} (w : worker) (q : list msg) (results : list output) :
  forall out,
    rtc bstep (BState (map MItem results ++ q) w CPolling out)
              (BState q w CPolling (out ++ results)).
Proof.
  induction results as [|r rs IH]; intros out.
  - simpl. rewrite app_nil_r. apply rtc_refl.
  - simpl. eapply rtc_l; [apply c_item|]. specialize (IH (out ++ [r])).
    rewrite <- app_assoc in IH. exact IH.
Qed.

(** When the consumer takes every message off the queue, it yields the
    results and then raises the exception the batch ended with. *)
Lemma bridge_reraises_when_drained `{Floats} (results : list output) (e : exn) :
  rtc bstep (binit results (EndException e))
            (BState [MDone] WExited (CRaised e) results).
Proof.
  unfold binit.
  etrans; [apply (worker_relays (EndException e) CPolling [] results [])|].
  unfold all_msgs. simpl.
  etrans; [apply (consumer_drains WExited (MError e :: [MDone]) results [])|].
  simpl. apply rtc_once. apply c_error.
Qed.

(** C9, at the schedule that loses the exception.  Whatever the batch
    yielded before it ended with the exception [e]: the consumer's poll
    can time out on the still empty queue, the worker can then put its
    messages, [("error", e)] among them, and end, and the consumer then
    finds the thread dead and leaves its loop.  The bridge has returned
    normally, nothing was delivered, the exception is still on the queue and
    no step remains. *)
Theorem bridge_can_drop_exception `{Floats} (results : list output) (e : exn) :
  exists s,
    rtc bstep (binit results (EndException e)) s
    /\ fg s = CReturned
    /\ bg s = WExited
    /\ delivered s = []
    /\ MError e ∈ queue s
    /\ forall s', ~ bstep s s'.
Proof.
  exists (BState (all_msgs results (EndException e)) WExited CReturned []).
  split; [|split; [done|split; [done|split; [done|split]]]].
  - unfold binit.
    eapply rtc_l; [apply c_timeout|].
    etrans; [apply (worker_relays (EndException e) CEmpty [] results [])|].
    simpl. eapply rtc_l; [by apply c_dead|]. apply rtc_once. apply c_join.
  - unfold all_msgs. simpl. apply elem_of_app. right. by left.
  - intros s' Hstep. inversion Hstep.
Qed.

End BridgeFacts.
